(** * Layout-animation key-frame manager: mutation ordering and progress

    A shallow embedding of
    [ReactCommon/react/renderer/animations/LayoutAnimationKeyFrameManager.h]:
    the two mutation comparators defined in the header, and models of the
    member functions the header only declares. *)

From Stdlib Require Import ZArith List Bool Lia String.
From Stdlib Require Import Sorting.Sorted Sorting.Permutation.
From Stdlib Require Import QArith Qcanon.
From Stdlib Require Import Floats.
Import ListNotations.

Local Open Scope Z_scope.

(** ** Data model *)

(** Modelled from the spec: [ShadowViewMutation::Type], declared in
    [ShadowViewMutation.h].  The header under study names [Delete], [Remove],
    [Insert] and [Create]; the data model lists the tagged variant as
    Create, Delete, Insert, Remove, Update. *)
Inductive MutationType : Set :=
  | Create
  | Delete
  | Insert
  | Remove
  | Update.

Definition MutationType_eqb (s t : MutationType) : bool :=
  match s, t with
  | Create, Create | Delete, Delete | Insert, Insert
  | Remove, Remove | Update, Update => true
  | _, _ => false
  end.

(** Modelled from the spec: the numeric visual attributes of a node snapshot
    (position, size, opacity).  Values are exact rationals in canonical form,
    so that equality of snapshots is plain equality; rounding of machine
    floating-point numbers is not part of this model. *)
Record VisualAttributes : Set := mkVisualAttributes {
  originX : Qc;
  originY : Qc;
  width : Qc;
  height : Qc;
  opacity : Qc
}.

(** Modelled from the spec: [ShadowView], the node snapshot declared in
    [ShadowView.h].  The comparators read only [tag]; the remaining fields
    are the payload a snapshot carries: the numeric attributes that an
    animation interpolates and the attributes it cannot interpolate. *)
Record ShadowView : Set := mkShadowView {
  componentName : string;
  surfaceId : Z;
  tag : Z;
  visual : VisualAttributes;
  otherAttributes : list (string * string)
}.

(** Modelled from the spec: [ShadowViewMutation], declared in
    [ShadowViewMutation.h]: a tagged variant carrying a node snapshot (before
    and after), a parent reference and a sibling index.  The fields [type],
    [parentShadowView.tag] and [index] are the ones the header reads; [int]
    values are modelled by their value in [Z], on which [==] and [>] are the
    integer comparisons. *)
Record ShadowViewMutation : Set := mkShadowViewMutation {
  type : MutationType;
  parentShadowView : ShadowView;
  oldChildShadowView : ShadowView;
  newChildShadowView : ShadowView;
  index : Z
}.

(** ** The comparators of the header *)

(** Make sure that removes on the same level are sorted - highest indices
    must come first. *)
Definition shouldFirstComeBeforeSecondRemovesOnly
    (lhs rhs : ShadowViewMutation) : bool :=
  (MutationType_eqb lhs.(type) Remove &&
   MutationType_eqb lhs.(type) rhs.(type)) &&
  (lhs.(parentShadowView).(tag) =? rhs.(parentShadowView).(tag)) &&
  (lhs.(index) >? rhs.(index)).

Definition shouldFirstComeBeforeSecondMutation
    (lhs rhs : ShadowViewMutation) : bool :=
  if negb (MutationType_eqb lhs.(type) rhs.(type)) then
    (* Deletes always come last *)
    if MutationType_eqb lhs.(type) Delete then false
    else if MutationType_eqb rhs.(type) Delete then true
    (* Remove comes before insert *)
    else if MutationType_eqb lhs.(type) Remove &&
            MutationType_eqb rhs.(type) Insert then true
    else if MutationType_eqb rhs.(type) Remove &&
            MutationType_eqb lhs.(type) Insert then false
    (* Create comes before insert *)
    else if MutationType_eqb lhs.(type) Create &&
            MutationType_eqb rhs.(type) Insert then true
    else if MutationType_eqb rhs.(type) Create &&
            MutationType_eqb lhs.(type) Insert then false
    else false
  else
    (* Make sure that removes on the same level are sorted - highest indices
       must come first. *)
    if MutationType_eqb lhs.(type) Remove &&
       (lhs.(parentShadowView).(tag) =? rhs.(parentShadowView).(tag)) then
      if lhs.(index) >? rhs.(index) then true else false
    else false.

(** ** Stable sorting with a comparator

    The comparators are written to be handed to [std::stable_sort].  Its
    result is modelled by a stable insertion sort: an element moves in front
    of another one only when the comparator says that it comes first.  The
    two sorts return the same list where the comparator is a strict weak
    order on the elements, as it is on the Removes of one parent; on other
    batches the result of [std::stable_sort] depends on its algorithm and
    this function does not stand for it. *)
Section StableSort.
Context {A : Type} (before : A -> A -> bool).

Fixpoint stable_insert (x : A) (l : list A) : list A :=
  match l with
  | [] => [x]
  | y :: l' => if before y x then y :: stable_insert x l' else x :: y :: l'
  end.

Fixpoint stable_sort (l : list A) : list A :=
  match l with
  | [] => []
  | x :: l' => stable_insert x (stable_sort l')
  end.

(** The postcondition of a sort by [before]: no element comes first with
    respect to one placed in front of it. *)
Definition sorted_by : list A -> Prop :=
  StronglySorted (fun x y => before y x = false).
End StableSort.

(** Order-theoretic vocabulary for a comparator. *)
Section Orders.
Context {A : Type} (before : A -> A -> bool).

Definition irreflexive : Prop := forall a, before a a = false.
Definition asymmetric : Prop := forall a b, before a b && before b a = false.
Definition transitive : Prop :=
  forall a b c, before a b = true -> before b c = true -> before a c = true.
Definition incomparable (a b : A) : Prop :=
  before a b = false /\ before b a = false.
Definition incomparability_transitive : Prop :=
  forall a b c, incomparable a b -> incomparable b c -> incomparable a c.

Definition strict_partial_order : Prop :=
  irreflexive /\ asymmetric /\ transitive.
(** The C++ named requirement on a comparator passed to a sort. *)
Definition strict_weak_ordering : Prop :=
  irreflexive /\ transitive /\ incomparability_transitive.
End Orders.

(** ** Animation records *)

(** Modelled from the spec: the animation configuration of [primitives.h]
    (duration, delay).  Both are millisecond counts like the clock, which the
    header types as [uint64_t]; an invalid duration is replaced by a default
    when the configuration is read, so a stored configuration never holds a
    negative one. *)
Record AnimationConfig : Set := mkAnimationConfig {
  duration : N;
  delay : N
}.

(** Modelled from the spec: [AnimationKeyFrame] of [primitives.h], the
    animated transition of one node: its identity, the starting and ending
    snapshots, the originating mutation, the configuration and the
    interruption flag. *)
Record AnimationKeyFrame : Set := mkAnimationKeyFrame {
  keyFrameTag : Z;
  viewStart : ShadowView;
  viewEnd : ShadowView;
  finalMutation : ShadowViewMutation;
  keyFrameConfig : AnimationConfig;
  invalidated : bool
}.

(** Modelled from the spec: [LayoutAnimation] of [primitives.h], one requested
    animation: the surface it belongs to, its start timestamp, the
    configuration and its key frames.  The two completion callbacks are opaque
    handles. *)
Record LayoutAnimation : Set := mkLayoutAnimation {
  animationSurfaceId : Z;
  startTime : N;
  layoutAnimationConfig : AnimationConfig;
  keyFrames : list AnimationKeyFrame;
  successCallback : option nat;
  failureCallback : option nat
}.

(** ** Animation progress *)

Definition Z2Qc (z : Z) : Qc := Q2Qc (inject_Z z).

(** The range of a [uint64_t], the type the header gives to clock readings. *)
Definition uint64 (n : N) : Prop := (n < 2 ^ 64)%N.

(** Conversion of an integer to [double]: the nearest binary64 number, ties
    to even. *)
Definition double_of_Z (z : Z) : float :=
  SF2Prim (binary_normalize prec emax z 0 false).

(** Modelled from the spec: the clamp into [[0, 1]] that
    [calculateAnimationProgress] applies to the raw progress, written with
    comparisons: a value below 0 gives 0, a value above 1 gives 1, and any
    other value is returned as it is (a NaN compares with nothing and stays a
    NaN). *)
Definition clampProgress (p : float) : float :=
  if (p <? 0)%float then 0%float
  else if (1 <? p)%float then 1%float
  else p.

(** Modelled from the spec: [calculateAnimationProgress] is only declared in
    the header, with a [uint64_t] clock reading and a pair of [double] as
    result.  It returns the pair (rawProgress, clampedProgress) where
    rawProgress = (now - startTime - delay) / duration and clampedProgress is
    rawProgress clamped into [[0, 1]].  The elapsed time is the signed
    difference of the formula; it and the duration are converted to binary64
    and divided in binary64, so that a zero duration gives an infinity or a
    NaN as it does for a [double]. *)
Definition calculateAnimationProgress
    (now : N) (animation : LayoutAnimation) (mutationConfig : AnimationConfig)
    : float * float :=
  let elapsed :=
    (Z.of_N now - Z.of_N animation.(startTime) - Z.of_N mutationConfig.(delay))%Z in
  let rawProgress :=
    (double_of_Z elapsed / double_of_Z (Z.of_N mutationConfig.(duration)))%float in
  (rawProgress, clampProgress rawProgress).

(** [x] is a number, a zero or an infinity whose sign bit is [s]. *)
Definition signed (s : bool) (x : spec_float) : Prop :=
  match x with
  | S754_nan => False
  | S754_zero t | S754_infinity t | S754_finite t _ _ => t = s
  end.

(** ** Transaction interceptor *)

(** The animation state of the manager: the two [mutable] members of the
    header, [currentAnimation_] and [inflightAnimations_]. *)
Record ManagerState : Set := mkManagerState {
  currentAnimation_ : option LayoutAnimation;
  inflightAnimations_ : list LayoutAnimation
}.

(** Modelled from the spec: [MountingTransaction] of [MountingTransaction.h],
    without its telemetry. *)
Record MountingTransaction : Set := mkMountingTransaction {
  transactionSurfaceId : Z;
  number : Z;
  mutations : list ShadowViewMutation
}.

(** Modelled from the spec: the key frames in flight on a surface, those of
    the in-flight animations that belong to it. *)
Definition keyFramesInFlight (st : ManagerState) (surface : Z)
    : list AnimationKeyFrame :=
  flat_map keyFrames
    (filter (fun a => a.(animationSurfaceId) =? surface)
            st.(inflightAnimations_)).

(** Modelled from the spec: an animation is active on a surface when one is
    configured or a key frame is in flight there. *)
Definition animationActive (st : ManagerState) (surface : Z) : bool :=
  match st.(currentAnimation_), keyFramesInFlight st surface with
  | None, [] => false
  | _, _ => true
  end.

Section Interceptor.
(** The per-transaction orchestration (conflict resolution, deferral, index
    adjustment, frame mutations) is declared in the header, partly as the
    pure virtual [animationMutationsForFrame]; it is a parameter here. *)
Variable animateTransaction :
  ManagerState -> Z -> N -> list ShadowViewMutation ->
  ManagerState * list ShadowViewMutation.

(** Modelled from the spec: [pullTransaction] is only declared in the
    header.  It returns no override ([None], the [better::optional] being
    empty) when no animation is active and no in-flight key frames exist on
    the surface; otherwise it returns the transaction rebuilt from the
    orchestration's mutation list, sorted with the ordering comparator. *)
Definition pullTransaction
    (st : ManagerState) (surface : Z) (transactionNumber : Z) (now : N)
    (mutationList : list ShadowViewMutation)
    : ManagerState * option MountingTransaction :=
  if animationActive st surface then
    let '(st', out) := animateTransaction st surface now mutationList in
    (st', Some {| transactionSurfaceId := surface;
                  number := transactionNumber;
                  mutations :=
                    stable_sort shouldFirstComeBeforeSecondMutation out |})
  else (st, None).
End Interceptor.

(** ** Concrete mutations used in examples *)

Definition plainView (t : Z) : ShadowView :=
  {| componentName := "View"; surfaceId := 1; tag := t;
     visual := {| originX := 0; originY := 0; width := 0; height := 0;
                  opacity := 1 |}%Qc;
     otherAttributes := [] |}.

Definition mutationOf (ty : MutationType) (parent child i : Z)
    : ShadowViewMutation :=
  {| type := ty; parentShadowView := plainView parent;
     oldChildShadowView := plainView child;
     newChildShadowView := plainView child; index := i |}.

(** A view with the tag of [plainView] and another payload everywhere else. *)
Definition otherView (t : Z) : ShadowView :=
  {| componentName := "Text"; surfaceId := 5; tag := t;
     visual := {| originX := Z2Qc 10; originY := Z2Qc 20; width := Z2Qc 30;
                  height := Z2Qc 40; opacity := 0%Qc |};
     otherAttributes := [("color", "red")]%string |}.

(** Two snapshots of one node, before and after a change of position, size,
    opacity and colour. *)
Definition startSnapshot : ShadowView :=
  {| componentName := "View"; surfaceId := 1; tag := 7;
     visual := {| originX := 0%Qc; originY := 0%Qc; width := Z2Qc 100;
                  height := Z2Qc 50; opacity := 1%Qc |};
     otherAttributes := [("backgroundColor", "red")]%string |}.

Definition finalSnapshot : ShadowView :=
  {| componentName := "View"; surfaceId := 1; tag := 7;
     visual := {| originX := Z2Qc 10; originY := Z2Qc 20; width := Z2Qc 200;
                  height := Z2Qc 50; opacity := 0%Qc |};
     otherAttributes := [("backgroundColor", "blue")]%string |}.

(** A manager with nothing configured and one animation in flight on
    surface 2. *)
Definition idleOnSurfaceOne : ManagerState :=
  {| currentAnimation_ := None;
     inflightAnimations_ :=
       [ {| animationSurfaceId := 2; startTime := 1000%N;
            layoutAnimationConfig := {| duration := 200%N; delay := 0%N |};
            keyFrames :=
              [ {| keyFrameTag := 7; viewStart := startSnapshot;
                   viewEnd := finalSnapshot;
                   finalMutation := mutationOf Update 3 7 0;
                   keyFrameConfig := {| duration := 200%N; delay := 0%N |};
                   invalidated := false |} ];
            successCallback := Some 0%nat;
            failureCallback := Some 1%nat |} ] |}.

(** An orchestration that emits the batch it is given. *)
Definition passBatch (st : ManagerState) (surface : Z) (now : N)
    (batch : list ShadowViewMutation)
    : ManagerState * list ShadowViewMutation :=
  (st, batch).

(** A Remove mutation under the parent with tag [p]. *)
Definition removeUnder (p : Z) (m : ShadowViewMutation) : Prop :=
  m.(type) = Remove /\ m.(parentShadowView).(tag) = p.

(** [a] stands somewhere in front of [b] in the list [l]. *)
Definition precedes {A : Type} (l : list A) (a b : A) : Prop :=
  exists l1 l2 l3, l = l1 ++ a :: l2 ++ b :: l3.

(** A batch with the five types, arranged as the comparator asks. *)
Definition arrangedBatch : list ShadowViewMutation :=
  [mutationOf Update 3 30 0; mutationOf Remove 7 20 3;
   mutationOf Create 0 40 0; mutationOf Remove 7 21 1;
   mutationOf Insert 7 40 1; mutationOf Delete 0 20 0;
   mutationOf Delete 0 21 0].

(** * Properties *)

(** ** Reading the comparators *)

Lemma MutationType_eqb_eq (s t : MutationType) :
  MutationType_eqb s t = true <-> s = t.
Proof. destruct s, t; simpl; split; congruence. Qed.

Lemma MutationType_eqb_refl (t : MutationType) : MutationType_eqb t t = true.
Proof. now destruct t. Qed.

(** On two removes of one parent both comparators are the test
    [rhs.index < lhs.index]. *)
Lemma removes_compare_by_index (a b : ShadowViewMutation) :
  a.(type) = Remove -> b.(type) = Remove ->
  a.(parentShadowView).(tag) = b.(parentShadowView).(tag) ->
  shouldFirstComeBeforeSecondMutation a b = (b.(index) <? a.(index)) /\
  shouldFirstComeBeforeSecondRemovesOnly a b = (b.(index) <? a.(index)).
Proof.
  intros Ha Hb Hp.
  unfold shouldFirstComeBeforeSecondMutation,
    shouldFirstComeBeforeSecondRemovesOnly.
  rewrite Ha, Hb, Hp, Z.eqb_refl, Z.gtb_ltb. simpl.
  now destruct (b.(index) <? a.(index)).
Qed.

Ltac by_cases_on_types a b :=
  unfold shouldFirstComeBeforeSecondMutation,
    shouldFirstComeBeforeSecondRemovesOnly;
  destruct (type a), (type b); simpl; try reflexivity; try congruence.

Lemma comparator_irreflexive : irreflexive shouldFirstComeBeforeSecondMutation.
Proof.
  intros a. unfold shouldFirstComeBeforeSecondMutation.
  rewrite MutationType_eqb_refl, Z.eqb_refl, Z.gtb_ltb, Z.ltb_irrefl. simpl.
  now destruct (MutationType_eqb (type a) Remove).
Qed.

Lemma comparator_asymmetric : asymmetric shouldFirstComeBeforeSecondMutation.
Proof.
  intros a b. by_cases_on_types a b.
  rewrite (Z.eqb_sym (tag (parentShadowView b))), !Z.gtb_ltb.
  destruct (tag (parentShadowView a) =? tag (parentShadowView b)); simpl;
    [|reflexivity].
  destruct (Z.ltb_spec (index b) (index a)), (Z.ltb_spec (index a) (index b));
    simpl; try reflexivity; lia.
Qed.

Lemma comparator_transitive : transitive shouldFirstComeBeforeSecondMutation.
Proof.
  intros a b c.
  unfold shouldFirstComeBeforeSecondMutation.
  destruct (type a), (type b), (type c); simpl; try congruence.
  rewrite !Z.gtb_ltb.
  destruct (Z.eqb_spec (tag (parentShadowView a)) (tag (parentShadowView b)))
    as [Hab|]; simpl; [|congruence].
  destruct (Z.eqb_spec (tag (parentShadowView b)) (tag (parentShadowView c)))
    as [Hbc|]; simpl; [|congruence].
  rewrite Hab, Hbc, Z.eqb_refl.
  destruct (Z.ltb_spec (index b) (index a)); [|congruence].
  destruct (Z.ltb_spec (index c) (index b)); [|congruence].
  destruct (Z.ltb_spec (index c) (index a)); [reflexivity|lia].
Qed.

Lemma removesOnly_strict_partial_order :
  strict_partial_order shouldFirstComeBeforeSecondRemovesOnly.
Proof.
  unfold shouldFirstComeBeforeSecondRemovesOnly. repeat split.
  - intros a. rewrite Z.gtb_ltb, Z.ltb_irrefl. apply andb_false_r.
  - intros a b. rewrite !Z.gtb_ltb.
    destruct (Z.ltb_spec (index b) (index a)),
      (Z.ltb_spec (index a) (index b));
      rewrite ?andb_false_r; simpl; try reflexivity; lia.
  - intros a b c. rewrite !Z.gtb_ltb, !andb_true_iff, !MutationType_eqb_eq,
      !Z.eqb_eq, !Z.ltb_lt.
    intros [[[? ?] ?] ?] [[[? ?] ?] ?]. repeat split; try congruence; lia.
Qed.

(** ** Ordering of mutations of different types *)

(** C1.  For two mutations of different types the comparator follows the
    priority rules: a Delete never sorts before the other mutation and every
    other mutation sorts before a Delete; a Remove sorts before an Insert, and
    a Create sorts before an Insert (and the Insert not before them). *)
Theorem differing_types_follow_priority_rules (a b : ShadowViewMutation) :
  a.(type) <> b.(type) ->
  (a.(type) = Delete -> shouldFirstComeBeforeSecondMutation a b = false) /\
  (b.(type) = Delete -> shouldFirstComeBeforeSecondMutation a b = true) /\
  (a.(type) = Remove -> b.(type) = Insert ->
     shouldFirstComeBeforeSecondMutation a b = true /\
     shouldFirstComeBeforeSecondMutation b a = false) /\
  (a.(type) = Create -> b.(type) = Insert ->
     shouldFirstComeBeforeSecondMutation a b = true /\
     shouldFirstComeBeforeSecondMutation b a = false).
Proof.
  intros Hne. unfold shouldFirstComeBeforeSecondMutation.
  repeat split; intros; destruct (type a), (type b);
    simpl; congruence.
Qed.

Lemma differing_types_follow_priority_rules_witness :
  let a := mutationOf Remove 7 20 3 in
  let b := mutationOf Insert 9 21 0 in
  a.(type) <> b.(type) /\
  shouldFirstComeBeforeSecondMutation a b = true /\
  shouldFirstComeBeforeSecondMutation b a = false.
Proof.
  intros a b.
  assert (Hne : a.(type) <> b.(type)) by discriminate.
  split; [exact Hne|].
  destruct (differing_types_follow_priority_rules a b Hne)
    as (_ & _ & Hri & _).
  exact (Hri eq_refl eq_refl).
Defined.

(** ** The two comparators agree on removes *)

(** C9.  The removes-only comparator returns what the full comparator returns
    on every pair of Remove mutations, and returns false as soon as one of the
    two mutations is not a Remove. *)
Theorem removesOnly_restricts_full_comparator (a b : ShadowViewMutation) :
  (a.(type) = Remove -> b.(type) = Remove ->
     shouldFirstComeBeforeSecondRemovesOnly a b =
     shouldFirstComeBeforeSecondMutation a b) /\
  (a.(type) <> Remove \/ b.(type) <> Remove ->
     shouldFirstComeBeforeSecondRemovesOnly a b = false).
Proof.
  unfold shouldFirstComeBeforeSecondMutation,
    shouldFirstComeBeforeSecondRemovesOnly.
  split.
  - intros -> ->. simpl.
    destruct (tag (parentShadowView a) =? tag (parentShadowView b)),
      (index a >? index b); reflexivity.
  - intros [H|H]; destruct (type a), (type b); simpl; congruence.
Qed.

Lemma removesOnly_restricts_full_comparator_witness :
  let a := mutationOf Remove 7 20 3 in
  let b := mutationOf Remove 7 21 1 in
  let c := mutationOf Update 7 22 0 in
  (shouldFirstComeBeforeSecondRemovesOnly a b =
   shouldFirstComeBeforeSecondMutation a b) /\
  shouldFirstComeBeforeSecondRemovesOnly a c = false.
Proof.
  intros a b c. split.
  - exact (proj1 (removesOnly_restricts_full_comparator a b)
             eq_refl eq_refl).
  - apply (proj2 (removesOnly_restricts_full_comparator a c)).
    right. discriminate.
Defined.

(** ** The comparator reads three fields only *)

(** C10.  The answer of the comparator is a function of the two types, the
    two parent tags and the two sibling indices: pairs of mutations that agree
    on those fields get the same answer, whatever their snapshots hold. *)
Theorem comparator_depends_on_type_parent_tag_index
    (a b a' b' : ShadowViewMutation) :
  a.(type) = a'.(type) -> b.(type) = b'.(type) ->
  a.(parentShadowView).(tag) = a'.(parentShadowView).(tag) ->
  b.(parentShadowView).(tag) = b'.(parentShadowView).(tag) ->
  a.(index) = a'.(index) -> b.(index) = b'.(index) ->
  shouldFirstComeBeforeSecondMutation a b =
  shouldFirstComeBeforeSecondMutation a' b'.
Proof.
  intros Hta Htb Hpa Hpb Hia Hib.
  unfold shouldFirstComeBeforeSecondMutation.
  now rewrite Hta, Htb, Hpa, Hpb, Hia, Hib.
Qed.

Lemma comparator_depends_on_type_parent_tag_index_witness :
  let a := mutationOf Remove 7 20 3 in
  let b := mutationOf Remove 7 21 1 in
  let a' := {| type := Remove; parentShadowView := otherView 7;
               oldChildShadowView := otherView 30;
               newChildShadowView := otherView 31; index := 3 |} in
  let b' := {| type := Remove; parentShadowView := otherView 7;
               oldChildShadowView := otherView 40;
               newChildShadowView := otherView 41; index := 1 |} in
  a <> a' /\ b <> b' /\
  shouldFirstComeBeforeSecondMutation a b =
  shouldFirstComeBeforeSecondMutation a' b'.
Proof.
  intros a b a' b'. split; [discriminate|]. split; [discriminate|].
  apply (comparator_depends_on_type_parent_tag_index a b a' b');
    reflexivity.
Defined.

(** ** Order-theoretic properties *)

(** Update is unordered with respect to both Remove and Insert, yet Remove
    sorts before Insert: being unordered is not transitive. *)
Lemma comparator_incomparability_not_transitive :
  ~ incomparability_transitive shouldFirstComeBeforeSecondMutation.
Proof.
  intros H.
  destruct (H (mutationOf Remove 7 20 3) (mutationOf Update 7 21 0)
              (mutationOf Insert 7 22 0)) as [Hri _].
  - split; reflexivity.
  - split; reflexivity.
  - discriminate Hri.
Qed.

(** C3, as stated: the comparator is not a strict weak ordering. *)
Lemma comparator_not_strict_weak_ordering :
  ~ strict_weak_ordering shouldFirstComeBeforeSecondMutation.
Proof.
  intros (_ & _ & H). exact (comparator_incomparability_not_transitive H).
Qed.

(** C3, amended.  Both comparators are strict partial orders: irreflexive,
    transitive, and asymmetric, so that for no pair of mutations both
    [a before b] and [b before a] hold. *)
Theorem comparators_are_strict_partial_orders :
  strict_partial_order shouldFirstComeBeforeSecondMutation /\
  strict_partial_order shouldFirstComeBeforeSecondRemovesOnly /\
  forall a b,
    ~ (shouldFirstComeBeforeSecondMutation a b = true /\
       shouldFirstComeBeforeSecondMutation b a = true).
Proof.
  split; [|split].
  - split; [exact comparator_irreflexive|].
    split; [exact comparator_asymmetric|exact comparator_transitive].
  - exact removesOnly_strict_partial_order.
  - intros a b [Hab Hba].
    pose proof (comparator_asymmetric a b) as H.
    rewrite Hab, Hba in H. discriminate H.
Qed.

Lemma comparators_are_strict_partial_orders_witness :
  let a := mutationOf Remove 7 20 3 in
  let b := mutationOf Remove 7 21 1 in
  shouldFirstComeBeforeSecondMutation a b = true /\
  shouldFirstComeBeforeSecondMutation b a = false.
Proof.
  intros a b.
  destruct comparators_are_strict_partial_orders as ((_ & Hasym & _) & _ & _).
  specialize (Hasym a b).
  assert (Hab : shouldFirstComeBeforeSecondMutation a b = true)
    by reflexivity.
  split; [exact Hab|].
  rewrite Hab in Hasym. exact Hasym.
Defined.

(** C4.  The comparator is transitive: whenever [a] sorts before [b] and [b]
    before [c], [a] sorts before [c], whatever the types of the three
    mutations are. *)
Theorem comparator_is_transitive (a b c : ShadowViewMutation) :
  shouldFirstComeBeforeSecondMutation a b = true ->
  shouldFirstComeBeforeSecondMutation b c = true ->
  shouldFirstComeBeforeSecondMutation a c = true.
Proof. apply comparator_transitive. Qed.

Lemma comparator_is_transitive_witness :
  let a := mutationOf Remove 7 20 3 in
  let b := mutationOf Remove 7 21 1 in
  let c := mutationOf Insert 7 22 0 in
  shouldFirstComeBeforeSecondMutation a b = true /\
  shouldFirstComeBeforeSecondMutation b c = true /\
  shouldFirstComeBeforeSecondMutation a c = true.
Proof.
  intros a b c.
  assert (Hab : shouldFirstComeBeforeSecondMutation a b = true)
    by reflexivity.
  assert (Hbc : shouldFirstComeBeforeSecondMutation b c = true)
    by reflexivity.
  split; [exact Hab|]. split; [exact Hbc|].
  exact (comparator_is_transitive a b c Hab Hbc).
Defined.

(** ** Sorting removes of one parent *)

Section StableSortFacts.
Context {A : Type} (before : A -> A -> bool).

Lemma stable_insert_perm (x : A) (l : list A) :
  Permutation (x :: l) (stable_insert before x l).
Proof.
  induction l as [|y l IH]; simpl; [reflexivity|].
  destruct (before y x); [|reflexivity].
  rewrite perm_swap. now constructor.
Qed.

Lemma stable_sort_perm (l : list A) : Permutation l (stable_sort before l).
Proof.
  induction l as [|x l IH]; simpl; [constructor|].
  rewrite <- stable_insert_perm. now constructor.
Qed.

Lemma stable_sort_Forall (P : A -> Prop) (l : list A) :
  Forall P l -> Forall P (stable_sort before l).
Proof.
  intros H. rewrite Forall_forall in *. intros x Hx. apply H.
  now apply (Permutation_in _ (Permutation_sym (stable_sort_perm l))).
Qed.
End StableSortFacts.

(** Two comparators that agree on the elements of a list sort it alike. *)
Lemma stable_insert_ext {A : Type} (f g : A -> A -> bool) (x : A) (l : list A) :
  Forall (fun y => f y x = g y x) l ->
  stable_insert f x l = stable_insert g x l.
Proof.
  induction 1 as [|y l Hy _ IH]; simpl; [reflexivity|].
  rewrite Hy, IH. reflexivity.
Qed.

Lemma stable_sort_ext {A : Type} (f g : A -> A -> bool) (P : A -> Prop)
    (l : list A) :
  (forall a b, P a -> P b -> f a b = g a b) ->
  Forall P l -> stable_sort f l = stable_sort g l.
Proof.
  intros Hfg. induction 1 as [|x l Hx Hl IH]; simpl; [reflexivity|].
  rewrite IH. apply stable_insert_ext.
  apply (stable_sort_Forall g) in Hl.
  rewrite Forall_forall in *. intros y Hy. apply Hfg; auto.
Qed.

Lemma removeUnder_before (p : Z) (a b : ShadowViewMutation) :
  removeUnder p a -> removeUnder p b ->
  shouldFirstComeBeforeSecondMutation a b = (b.(index) <? a.(index)).
Proof.
  intros [Ha Hpa] [Hb Hpb].
  apply removes_compare_by_index; congruence.
Qed.

(** Whatever the sorting algorithm, a list of removes of one parent that
    meets the postcondition of the sort has non-increasing indices. *)
Lemma sorted_removes_non_increasing (p : Z) (l : list ShadowViewMutation) :
  Forall (removeUnder p) l ->
  sorted_by shouldFirstComeBeforeSecondMutation l ->
  StronglySorted Z.ge (map index l).
Proof.
  intros HP Hs. induction Hs as [|x l Hs IH Hx]; simpl; constructor.
  - apply IH. now inversion HP.
  - inversion HP as [|? ? Px Pl]; subst.
    rewrite Forall_map. rewrite Forall_forall in *. intros y Hy.
    specialize (Hx y Hy). cbv beta in Hx.
    rewrite (removeUnder_before p) in Hx by auto.
    apply Z.ltb_ge in Hx. lia.
Qed.

Lemma stable_insert_sorted_removes (p : Z) (x : ShadowViewMutation)
    (l : list ShadowViewMutation) :
  removeUnder p x -> Forall (removeUnder p) l ->
  sorted_by shouldFirstComeBeforeSecondMutation l ->
  sorted_by shouldFirstComeBeforeSecondMutation
    (stable_insert shouldFirstComeBeforeSecondMutation x l).
Proof.
  intros Px HP Hs. induction Hs as [|y l Hs IH Hy]; simpl.
  - repeat constructor.
  - inversion HP as [|? ? Py Pl]; subst.
    pose proof (removeUnder_before p y x Py Px) as Hyx.
    destruct (shouldFirstComeBeforeSecondMutation y x) eqn:E.
    + constructor; [now apply IH|].
      symmetry in Hyx. apply Z.ltb_lt in Hyx.
      rewrite Forall_forall in *. intros z Hz.
      apply (Permutation_in _ (Permutation_sym (stable_insert_perm _ x l)))
        in Hz.
      destruct Hz as [<-|Hz]; [|now apply Hy].
      rewrite (removeUnder_before p) by auto. apply Z.ltb_ge. lia.
    + symmetry in Hyx. apply Z.ltb_ge in Hyx.
      constructor; [now constructor|].
      constructor; [exact E|].
      rewrite Forall_forall in *. intros z Hz.
      specialize (Hy z Hz). cbv beta in Hy.
      rewrite (removeUnder_before p) in Hy by auto.
      rewrite (removeUnder_before p) by auto.
      apply Z.ltb_ge in Hy. apply Z.ltb_ge. lia.
Qed.

Lemma stable_sort_sorted_removes (p : Z) (l : list ShadowViewMutation) :
  Forall (removeUnder p) l ->
  sorted_by shouldFirstComeBeforeSecondMutation
    (stable_sort shouldFirstComeBeforeSecondMutation l).
Proof.
  induction 1 as [|x l Px Pl IH]; simpl; [constructor|].
  apply (stable_insert_sorted_removes p); auto.
  now apply stable_sort_Forall.
Qed.

(** C2.  On two Remove mutations whose parents have the same tag, both
    comparators put the mutation with the higher sibling index first; hence a
    stable sort of removes of one parent, with either comparator, yields the
    removes in non-increasing order of sibling index, and so does every
    arrangement that meets the postcondition of the sort. *)
Theorem same_parent_removes_sort_highest_index_first :
  (forall a b : ShadowViewMutation,
     a.(type) = Remove -> b.(type) = Remove ->
     a.(parentShadowView).(tag) = b.(parentShadowView).(tag) ->
     shouldFirstComeBeforeSecondMutation a b = (b.(index) <? a.(index)) /\
     shouldFirstComeBeforeSecondRemovesOnly a b = (b.(index) <? a.(index))) /\
  (forall (p : Z) (l : list ShadowViewMutation),
     Forall (removeUnder p) l ->
     let sorted := stable_sort shouldFirstComeBeforeSecondMutation l in
     Permutation l sorted /\
     StronglySorted Z.ge (map index sorted) /\
     stable_sort shouldFirstComeBeforeSecondRemovesOnly l = sorted) /\
  (forall (p : Z) (l : list ShadowViewMutation),
     Forall (removeUnder p) l ->
     sorted_by shouldFirstComeBeforeSecondMutation l ->
     StronglySorted Z.ge (map index l)).
Proof.
  split; [exact removes_compare_by_index|]. split.
  - intros p l HP sorted. subst sorted. split; [apply stable_sort_perm|].
    split.
    + apply (sorted_removes_non_increasing p).
      * now apply stable_sort_Forall.
      * now apply (stable_sort_sorted_removes p).
    + apply (stable_sort_ext _ _ (removeUnder p)); [|exact HP].
      intros a b [Ha Hpa] [Hb Hpb].
      destruct (removes_compare_by_index a b) as [-> ->]; congruence.
  - exact sorted_removes_non_increasing.
Qed.

Lemma same_parent_removes_sort_highest_index_first_witness :
  let l := [mutationOf Remove 7 20 1; mutationOf Remove 7 21 4;
            mutationOf Remove 7 22 2; mutationOf Remove 7 23 4] in
  Forall (removeUnder 7) l /\
  map index (stable_sort shouldFirstComeBeforeSecondMutation l) = [4; 4; 2; 1] /\
  map (fun m => m.(oldChildShadowView).(tag))
      (stable_sort shouldFirstComeBeforeSecondMutation l) = [21; 23; 22; 20] /\
  StronglySorted Z.ge
    (map index (stable_sort shouldFirstComeBeforeSecondMutation l)).
Proof.
  intros l.
  assert (HP : Forall (removeUnder 7) l)
    by (repeat constructor).
  split; [exact HP|]. split; [reflexivity|]. split; [reflexivity|].
  destruct same_parent_removes_sort_highest_index_first as (_ & Hsort & _).
  exact (proj1 (proj2 (Hsort 7 l HP))).
Defined.

(** ** Conversion to binary64 and rounding *)

Lemma digits2_pos_bounds (p : positive) :
  2 ^ (Zpos (digits2_pos p) - 1) <= Zpos p < 2 ^ Zpos (digits2_pos p).
Proof.
  induction p as [p IH|p IH|]; simpl digits2_pos.
  - rewrite Pos2Z.inj_succ, (Pos2Z.inj_xI p).
    replace (Z.succ (Z.pos (digits2_pos p)) - 1) with (Z.succ (Z.pos (digits2_pos p) - 1)) by lia.
    rewrite !Z.pow_succ_r by lia.
    destruct IH as [IH1 IH2]. revert IH1 IH2. generalize (2 ^ (Z.pos (digits2_pos p) - 1)) (2 ^ Z.pos (digits2_pos p)) (Z.pos p). intros. lia.
  - rewrite Pos2Z.inj_succ, (Pos2Z.inj_xO p).
    replace (Z.succ (Z.pos (digits2_pos p)) - 1) with (Z.succ (Z.pos (digits2_pos p) - 1)) by lia.
    rewrite !Z.pow_succ_r by lia.
    destruct IH as [IH1 IH2]. revert IH1 IH2. generalize (2 ^ (Z.pos (digits2_pos p) - 1)) (2 ^ Z.pos (digits2_pos p)) (Z.pos p). intros. lia.
  - simpl. lia.
Qed.

Lemma digits2_pos_unique (q : positive) (n : Z) :
  2 ^ (n - 1) <= Zpos q < 2 ^ n -> Zpos (digits2_pos q) = n.
Proof.
  intros [Hlo Hhi]. pose proof (digits2_pos_bounds q) as [Dlo Dhi].
  set (d := Zpos (digits2_pos q)) in *.
  assert (0 < n).
  { destruct (Z.lt_ge_cases 0 n); [assumption|].
    destruct (Z.eq_dec n 0) as [->|]; [simpl in Hhi; lia|].
    rewrite Z.pow_neg_r in Hhi by lia. lia. }
  destruct (Z.lt_trichotomy d n) as [Hlt|[Heq|Hgt]]; [|assumption|].
  - assert (2 ^ d <= 2 ^ (n - 1)) by (apply Z.pow_le_mono_r; lia). lia.
  - assert (2 ^ n <= 2 ^ (d - 1)) by (apply Z.pow_le_mono_r; lia). lia.
Qed.

Lemma iter_xO_value (p k : positive) :
  Zpos (Pos.iter xO p k) = Zpos p * 2 ^ Zpos k.
Proof.
  induction k as [|k IH] using Pos.peano_ind.
  - simpl. lia.
  - rewrite Pos.iter_succ, (Pos2Z.inj_xO (Pos.iter xO p k)), IH,
      Pos2Z.inj_succ, Z.pow_succ_r by lia. lia.
Qed.

Lemma shr_1_value (mrs : shr_record) :
  0 <= shr_m mrs -> shr_m (shr_1 mrs) = shr_m mrs / 2.
Proof.
  destruct mrs as [m r s]. simpl. intros Hm.
  destruct m as [|[q|q|]|q]; simpl; try lia.
  - reflexivity.
  - rewrite (Pos2Z.inj_xI q). apply (Z.div_unique _ 2 _ 1); lia.
  - rewrite (Pos2Z.inj_xO q). apply (Z.div_unique _ 2 _ 0); lia.
  - reflexivity.
Qed.

Lemma iter_pos_shr_1 (k : positive) :
  forall mrs, 0 <= shr_m mrs ->
    shr_m (iter_pos shr_1 k mrs) = shr_m mrs / 2 ^ Zpos k.
Proof.
  induction k as [k IH|k IH|]; intros mrs Hm; simpl iter_pos.
  - assert (H1 : 0 <= shr_m (shr_1 mrs))
      by (rewrite shr_1_value by assumption; apply Z.div_pos; lia).
    assert (H2 : 0 <= shr_m (iter_pos shr_1 k (shr_1 mrs)))
      by (rewrite IH by assumption; apply Z.div_pos; [assumption|apply Z.pow_pos_nonneg; lia]).
    rewrite IH, IH, shr_1_value by assumption.
    rewrite !Z.div_div by (try apply Z.pow_pos_nonneg; lia).
    f_equal. rewrite (Pos2Z.inj_xI k), Z.pow_add_r, Z.pow_mul_r by lia.
    change (2 ^ 2) with 4. change (2 ^ 1) with 2.
    replace 4 with (2 * 2) by reflexivity.
    rewrite Z.pow_mul_l. lia.
  - assert (H2 : 0 <= shr_m (iter_pos shr_1 k mrs))
      by (rewrite IH by assumption; apply Z.div_pos; [assumption|apply Z.pow_pos_nonneg; lia]).
    rewrite IH, IH by assumption.
    rewrite !Z.div_div by (try apply Z.pow_pos_nonneg; lia).
    f_equal. rewrite (Pos2Z.inj_xO k), Z.pow_mul_r by lia.
    change (2 ^ 2) with 4. replace 4 with (2 * 2) by reflexivity.
    rewrite Z.pow_mul_l. lia.
  - rewrite shr_1_value by assumption. reflexivity.
Qed.

Lemma fexp_53 (e : Z) : -1074 <= e -> fexp prec emax (53 + e) = e.
Proof. unfold fexp, SpecFloat.emin, prec, emax. lia. Qed.

Lemma binary_round_aux_canonical (s : bool) (m : positive) (e : Z) :
  Zpos (digits2_pos m) = 53 -> -1074 <= e ->
  binary_round_aux prec emax s (Zpos m) e loc_Exact =
  if e <=? 971 then S754_finite s m e else S754_infinity s.
Proof.
  intros Hd He.
  unfold binary_round_aux, shr_fexp.
  cbn [Zdigits2 shr_record_of_loc]. rewrite Hd, (fexp_53 e He), Z.sub_diag.
  cbn [shr shr_m loc_of_shr_record round_nearest_even Zdigits2 shr_record_of_loc].
  rewrite Hd, (fexp_53 e He), Z.sub_diag.
  cbn [shr shr_m]. reflexivity.
Qed.

Lemma bounded_53 (m : positive) (e : Z) :
  Zpos (digits2_pos m) = 53 -> -1074 <= e <= 971 ->
  bounded prec emax m e = true.
Proof.
  intros Hd He. unfold bounded, canonical_mantissa.
  rewrite Hd, (fexp_53 e) by lia. rewrite Z.eqb_refl. simpl.
  apply Z.leb_le. simpl. lia.
Qed.

Lemma round_nearest_even_range (m : Z) (l : location) :
  m <= round_nearest_even m l <= m + 1.
Proof.
  destruct l as [|[| |]]; simpl; try lia.
  destruct (Z.even m); lia.
Qed.

Lemma binary_round_aux_long (s : bool) (p k : positive) :
  Zpos (digits2_pos p) = 53 + Zpos k ->
  (exists m e,
     binary_round_aux prec emax s (Zpos p) 0 loc_Exact = S754_finite s m e /\
     bounded prec emax m e = true) \/
  (binary_round_aux prec emax s (Zpos p) 0 loc_Exact = S754_infinity s /\
   971 <= Zpos k).
Proof.
  intros Hd.
  pose proof (digits2_pos_bounds p) as [Plo Phi]. rewrite Hd in Plo, Phi.
  replace (53 + Zpos k - 1) with (52 + Zpos k) in Plo by lia.
  rewrite Z.pow_add_r in Plo, Phi by lia.
  assert (H2k : 0 < 2 ^ Zpos k) by (apply Z.pow_pos_nonneg; lia).
  unfold binary_round_aux, shr_fexp.
  cbn [Zdigits2 shr_record_of_loc]. rewrite Hd.
  replace (fexp prec emax (53 + Zpos k + 0) - 0) with (Zpos k)
    by (unfold fexp, SpecFloat.emin, prec, emax; lia).
  cbn [shr].
  set (mrs1 := iter_pos shr_1 k _).
  assert (Hm1 : shr_m mrs1 = Zpos p / 2 ^ Zpos k)
    by (subst mrs1; rewrite iter_pos_shr_1; simpl; [reflexivity|lia]).
  assert (Hlo : 2 ^ 52 <= shr_m mrs1).
  { rewrite Hm1. apply Z.div_le_lower_bound; lia. }
  assert (Hhi : shr_m mrs1 < 2 ^ 53).
  { rewrite Hm1. apply Z.div_lt_upper_bound; lia. }
  pose proof (round_nearest_even_range (shr_m mrs1) (loc_of_shr_record mrs1))
    as [Rlo Rhi].
  set (mr := round_nearest_even _ _) in *.
  change (2 ^ 52) with 4503599627370496 in *.
  change (2 ^ 53) with 9007199254740992 in *.
  destruct mr as [|q|q] eqn:Emr; try lia.
  cbn [Zdigits2].
  destruct (Z.eq_dec (Zpos q) 9007199254740992) as [Heq|Hne].
  - injection Heq as ->. cbn [digits2_pos Pos.succ].
    replace (fexp prec emax (54 + (0 + Zpos k)) - (0 + Zpos k)) with 1
      by (unfold fexp, SpecFloat.emin, prec, emax; lia).
    cbn [shr iter_pos shr_record_of_loc shr_1 shr_m].
    destruct (Z.leb_spec (0 + Zpos k + 1) (emax - prec)) as [Hle|Hgt].
    + left. eexists _, _. split; [reflexivity|].
      apply bounded_53; [reflexivity|]. unfold emax, prec in Hle. lia.
    + right. split; [reflexivity|]. unfold emax, prec in Hgt. lia.
  - assert (Hq : Zpos (digits2_pos q) = 53).
    { apply digits2_pos_unique.
      change (2 ^ (53 - 1)) with 4503599627370496.
      change (2 ^ 53) with 9007199254740992. lia. }
    rewrite Hq.
    replace (fexp prec emax (53 + (0 + Zpos k)) - (0 + Zpos k)) with 0
      by (unfold fexp, SpecFloat.emin, prec, emax; lia).
    cbn [shr shr_record_of_loc shr_m].
    destruct (Z.leb_spec (0 + Zpos k) (emax - prec)) as [Hle|Hgt].
    + left. eexists _, _. split; [reflexivity|].
      apply bounded_53; [exact Hq|]. unfold emax, prec in Hle. lia.
    + right. split; [reflexivity|]. unfold emax, prec in Hgt. lia.
Qed.

Lemma binary_round_int (s : bool) (p : positive) :
  (exists m e,
     binary_round prec emax s p 0 = S754_finite s m e /\
     bounded prec emax m e = true) \/
  (binary_round prec emax s p 0 = S754_infinity s /\
   1024 <= Zpos (digits2_pos p)).
Proof.
  unfold binary_round, shl_align.
  replace (fexp prec emax (Zpos (digits2_pos p) + 0) - 0)
    with (Zpos (digits2_pos p) - 53)
    by (unfold fexp, SpecFloat.emin, prec, emax; lia).
  destruct (Zpos (digits2_pos p) - 53) as [|k|k] eqn:Ek.
  - left. rewrite binary_round_aux_canonical by lia. simpl.
    eexists _, _. split; [reflexivity|]. apply bounded_53; lia.
  - destruct (binary_round_aux_long s p k) as [H|[H Hk]]; [lia|now left|].
    right. split; [exact H|lia].
  - left.
    assert (Hd : Zpos (digits2_pos (Pos.iter xO p k)) = 53).
    { apply digits2_pos_unique. rewrite iter_xO_value.
      pose proof (digits2_pos_bounds p) as [Plo Phi].
      assert (E1 : 2 ^ (53 - 1) = 2 ^ (Zpos (digits2_pos p) - 1) * 2 ^ Zpos k)
        by (rewrite <- Z.pow_add_r by lia; f_equal; lia).
      assert (E2 : 2 ^ 53 = 2 ^ Zpos (digits2_pos p) * 2 ^ Zpos k)
        by (rewrite <- Z.pow_add_r by lia; f_equal; lia).
      rewrite E1, E2.
      assert (0 < 2 ^ Zpos k) by (apply Z.pow_pos_nonneg; lia).
      split; [apply Z.mul_le_mono_nonneg_r|apply Z.mul_lt_mono_pos_r]; lia. }
    assert (He : -1074 <= fexp prec emax (Zpos (digits2_pos p) + 0) <= 971)
      by (unfold fexp, SpecFloat.emin, prec, emax; lia).
    rewrite binary_round_aux_canonical by (assumption || lia).
    destruct He as [_ He]. apply Z.leb_le in He. rewrite He.
    eexists _, _. split; [reflexivity|].
    apply bounded_53; [exact Hd|]. apply Z.leb_le in He.
    unfold fexp, SpecFloat.emin, prec, emax in *. lia.
Qed.

Lemma binary_normalize_valid (z : Z) :
  valid_binary (binary_normalize prec emax z 0 false) = true.
Proof.
  destruct z as [|p|p]; simpl binary_normalize; [reflexivity| |].
  - destruct (binary_round_int false p) as [(m & e & -> & H)|[-> _]];
      [exact H|reflexivity].
  - destruct (binary_round_int true p) as [(m & e & -> & H)|[-> _]];
      [exact H|reflexivity].
Qed.

Lemma Prim2SF_double_of_Z (z : Z) :
  Prim2SF (double_of_Z z) = binary_normalize prec emax z 0 false.
Proof. apply Prim2SF_SF2Prim, binary_normalize_valid. Qed.

Lemma double_of_Z_positive (z : Z) :
  0 < z ->
  (exists m e, Prim2SF (double_of_Z z) = S754_finite false m e) \/
  Prim2SF (double_of_Z z) = S754_infinity false /\ 2 ^ 1023 <= z.
Proof.
  intros Hz. rewrite Prim2SF_double_of_Z.
  destruct z as [|p|p]; try lia. simpl binary_normalize.
  destruct (binary_round_int false p) as [(m & e & H & _)|[H Hd]].
  - left. now exists m, e.
  - right. split; [exact H|].
    pose proof (digits2_pos_bounds p) as [Plo _].
    assert (2 ^ 1023 <= 2 ^ (Zpos (digits2_pos p) - 1))
      by (apply Z.pow_le_mono_r; lia).
    lia.
Qed.

Lemma double_of_Z_negative (z : Z) :
  - 2 ^ 1023 < z < 0 ->
  exists m e, Prim2SF (double_of_Z z) = S754_finite true m e.
Proof.
  intros Hz. rewrite Prim2SF_double_of_Z.
  destruct z as [|p|p]; try lia. simpl binary_normalize.
  destruct (binary_round_int true p) as [(m & e & H & _)|[H Hd]].
  - now exists m, e.
  - pose proof (digits2_pos_bounds p) as [Plo _].
    assert (2 ^ 1023 <= 2 ^ (Zpos (digits2_pos p) - 1))
      by (apply Z.pow_le_mono_r; lia).
    lia.
Qed.

Lemma shr_record_of_loc_m (m : Z) (l : location) :
  shr_m (shr_record_of_loc m l) = m.
Proof. destruct l as [|[| |]]; reflexivity. Qed.

Lemma shr_fexp_nonneg (m e : Z) (l : location) :
  0 <= m -> 0 <= shr_m (fst (shr_fexp prec emax m e l)).
Proof.
  intros Hm. unfold shr_fexp, shr.
  destruct (fexp prec emax (Zdigits2 m + e) - e) as [|k|k]; cbn [fst];
    rewrite ?iter_pos_shr_1; rewrite shr_record_of_loc_m; try assumption.
  apply Z.div_pos; [assumption|apply Z.pow_pos_nonneg; lia].
Qed.

Lemma binary_round_aux_signed (s : bool) (m e : Z) (l : location) :
  0 <= m -> signed s (binary_round_aux prec emax s m e l).
Proof.
  intros Hm. unfold binary_round_aux.
  pose proof (shr_fexp_nonneg m e l Hm) as H1.
  destruct (shr_fexp prec emax m e l) as [mrs' e']. cbn [fst] in H1.
  pose proof (round_nearest_even_range (shr_m mrs') (loc_of_shr_record mrs'))
    as [R _].
  pose proof (shr_fexp_nonneg
                (round_nearest_even (shr_m mrs') (loc_of_shr_record mrs'))
                e' loc_Exact ltac:(lia)) as H2.
  destruct (shr_fexp prec emax _ e' loc_Exact) as [mrs'' e''].
  cbn [fst] in H2.
  destruct (shr_m mrs'') as [|q|q]; [reflexivity| |lia].
  destruct (e'' <=? emax - prec); reflexivity.
Qed.

Lemma SFdiv_negative_by_nonnegative (x y : spec_float) :
  (exists m e, x = S754_finite true m e) ->
  signed false y ->
  signed true (SF64div x y).
Proof.
  intros (mx & ex & ->) Hy. unfold SF64div, SFdiv.
  destruct y as [t|t| |t my ey]; simpl in Hy; try contradiction; subst t;
    try reflexivity.
  unfold SFdiv_core_binary.
  set (m' := match _ with Z0 => Zpos mx | Zpos _ => _ | Zneg _ => 0 end).
  assert (Hm' : 0 <= m').
  { subst m'. destruct (_ - _ - _); try lia. apply Z.shiftl_nonneg. lia. }
  pose proof (Z.div_pos m' (Zpos my) Hm' ltac:(lia)) as Hq.
  unfold Z.div in Hq. destruct (Z.div_eucl m' (Zpos my)) as [q r].
  now apply binary_round_aux_signed.
Qed.

Lemma clampProgress_of_negative (raw : float) :
  signed true (Prim2SF raw) -> (clampProgress raw =? 0)%float = true.
Proof.
  intros H. unfold clampProgress.
  rewrite (ltb_spec raw 0), (ltb_spec 1 raw).
  change (Prim2SF 0) with (S754_zero false).
  change (Prim2SF 1) with (S754_finite false 4503599627370496 (-52)).
  destruct (Prim2SF raw) as [t|t| |t m e] eqn:E; simpl in H;
    try contradiction; subst t; cbn; try reflexivity.
  rewrite eqb_spec, E. reflexivity.
Qed.

Lemma SFcompare_antisym (x y : spec_float) (c : comparison) :
  SFcompare x y = Some c -> SFcompare y x = Some (CompOpp c).
Proof.
  destruct x as [sx|sx| |sx mx ex], y as [sy|sy| |sy my ey]; simpl;
    try discriminate; intros H; injection H as <-;
    try (destruct sx; reflexivity); try (destruct sy; reflexivity);
    try (destruct sx, sy; reflexivity).
  destruct sx, sy; try reflexivity;
    rewrite (Z.compare_antisym ex ey);
    destruct (ex ?= ey); simpl; try reflexivity.
  - rewrite CompOpp_involutive, (Pos.compare_cont_antisym my mx Eq).
    reflexivity.
  - rewrite (Pos.compare_cont_antisym mx my Eq). reflexivity.
Qed.

Lemma clampProgress_in_range (raw : float) :
  Prim2SF raw <> S754_nan ->
  (0 <=? clampProgress raw)%float = true /\
  (clampProgress raw <=? 1)%float = true.
Proof.
  intros Hnan. unfold clampProgress.
  destruct (raw <? 0)%float eqn:E0; [split; reflexivity|].
  destruct (1 <? raw)%float eqn:E1; [split; reflexivity|].
  rewrite ltb_spec in E0, E1. rewrite !leb_spec.
  unfold SFltb in E0, E1. unfold SFleb.
  destruct (SFcompare (Prim2SF raw) (Prim2SF 0)) as [c0|] eqn:C0.
  - destruct (SFcompare (Prim2SF 1) (Prim2SF raw)) as [c1|] eqn:C1.
    + rewrite (SFcompare_antisym _ _ _ C0), (SFcompare_antisym _ _ _ C1).
      destruct c0, c1; try discriminate; split; reflexivity.
    + exfalso. change (Prim2SF 1) with (S754_finite false 4503599627370496 (-52)) in C1.
      destruct (Prim2SF raw); try discriminate; now apply Hnan.
  - exfalso. change (Prim2SF 0) with (S754_zero false) in C0.
    destruct (Prim2SF raw) as [| | |[]]; try discriminate; now apply Hnan.
Qed.

Lemma clampProgress_inside (raw : float) :
  (0 <=? raw)%float = true -> (raw <=? 1)%float = true ->
  clampProgress raw = raw.
Proof.
  intros H0 H1. unfold clampProgress.
  rewrite leb_spec in H0, H1. rewrite !ltb_spec.
  unfold SFleb in H0, H1. unfold SFltb.
  destruct (SFcompare (Prim2SF 0) (Prim2SF raw)) as [c0|] eqn:C0;
    [|discriminate].
  destruct (SFcompare (Prim2SF raw) (Prim2SF 1)) as [c1|] eqn:C1;
    [|discriminate].
  rewrite (SFcompare_antisym _ _ _ C0), (SFcompare_antisym _ _ _ C1).
  destruct c0, c1; try discriminate; reflexivity.
Qed.

(** ** The progress pair *)

Lemma calculateAnimationProgress_raw
    (now : N) (animation : LayoutAnimation) (config : AnimationConfig) :
  Prim2SF (fst (calculateAnimationProgress now animation config)) =
  SF64div
    (binary_normalize prec emax
       (Z.of_N now - Z.of_N animation.(startTime) - Z.of_N config.(delay))
       0 false)
    (binary_normalize prec emax (Z.of_N config.(duration)) 0 false).
Proof.
  unfold calculateAnimationProgress. cbn [fst].
  now rewrite div_spec, !Prim2SF_double_of_Z.
Qed.

Lemma double_of_Z_nonnegative (z : Z) :
  0 <= z -> signed false (Prim2SF (double_of_Z z)).
Proof.
  intros Hz. destruct (Z.eq_dec z 0) as [->|Hne]; [reflexivity|].
  destruct (double_of_Z_positive z ltac:(lia)) as [(m & e & ->)|[-> _]];
    reflexivity.
Qed.

(** C6.  For every clock reading, animation and configuration,
    [calculateAnimationProgress] returns the pair of the raw progress, the
    binary64 quotient of now - startTime - delay by the duration, and of that
    value clamped into [[0, 1]]: 0 below the interval, 1 above it, the value
    itself inside it, so that the clamped progress lies in [[0, 1]] whenever
    the raw progress is a number.  As long as now < startTime + delay, with
    clock readings and delay in the range of [uint64_t], the clamped progress
    compares equal to 0 (it is 0, or the negative zero of a quotient too
    small for binary64). *)
Theorem calculateAnimationProgress_raw_and_clamped
    (now : N) (animation : LayoutAnimation) (config : AnimationConfig) :
  let elapsed :=
    (Z.of_N now - Z.of_N animation.(startTime) - Z.of_N config.(delay))%Z in
  let rawProgress := fst (calculateAnimationProgress now animation config) in
  let clampedProgress := snd (calculateAnimationProgress now animation config) in
  Prim2SF rawProgress =
    SF64div (binary_normalize prec emax elapsed 0 false)
            (binary_normalize prec emax (Z.of_N config.(duration)) 0 false) /\
  ((rawProgress <? 0)%float = true -> clampedProgress = 0%float) /\
  ((1 <? rawProgress)%float = true -> clampedProgress = 1%float) /\
  ((0 <=? rawProgress)%float = true -> (rawProgress <=? 1)%float = true ->
   clampedProgress = rawProgress) /\
  (Prim2SF rawProgress <> S754_nan ->
   (0 <=? clampedProgress)%float = true /\
   (clampedProgress <=? 1)%float = true) /\
  (uint64 now -> uint64 animation.(startTime) -> uint64 config.(delay) ->
   (now < animation.(startTime) + config.(delay))%N ->
   (clampedProgress =? 0)%float = true).
Proof.
  intros elapsed rawProgress clampedProgress.
  assert (Hclamped : clampedProgress = clampProgress rawProgress)
    by reflexivity.
  split; [apply calculateAnimationProgress_raw|].
  split; [intros H; rewrite Hclamped; unfold clampProgress; now rewrite H|].
  split.
  { intros H. rewrite Hclamped. unfold clampProgress. rewrite H.
    destruct (rawProgress <? 0)%float eqn:E; [|reflexivity].
    exfalso. rewrite ltb_spec in E, H.
    change (Prim2SF 0) with (S754_zero false) in E.
    change (Prim2SF 1) with (S754_finite false 4503599627370496 (-52)) in H.
    destruct (Prim2SF rawProgress) as [t|t| |t m e];
      try discriminate; destruct t; discriminate. }
  split; [intros H0 H1; rewrite Hclamped; now apply clampProgress_inside|].
  split; [intros H; rewrite Hclamped; now apply clampProgress_in_range|].
  intros Hnow Hstart Hdelay Hphase. rewrite Hclamped.
  apply clampProgress_of_negative.
  subst rawProgress. rewrite calculateAnimationProgress_raw.
  apply SFdiv_negative_by_nonnegative.
  - rewrite <- Prim2SF_double_of_Z. apply double_of_Z_negative.
    unfold uint64 in *.
    assert (2 ^ 66 < 2 ^ 1023) by (apply Z.pow_lt_mono_r; lia).
    change (2 ^ 64)%N with 18446744073709551616%N in *.
    change (2 ^ 66) with 73786976294838206464 in *.
    lia.
  - rewrite <- Prim2SF_double_of_Z. apply double_of_Z_nonnegative. lia.
Qed.

Lemma calculateAnimationProgress_raw_and_clamped_witness :
  let animation :=
    {| animationSurfaceId := 1; startTime := 1000%N;
       layoutAnimationConfig := {| duration := 200%N; delay := 50%N |};
       keyFrames := []; successCallback := None; failureCallback := None |} in
  let config := {| duration := 200%N; delay := 50%N |} in
  (uint64 1000 /\ uint64 animation.(startTime) /\ uint64 config.(delay) /\
   (1000 < animation.(startTime) + config.(delay))%N) /\
  (snd (calculateAnimationProgress 1000 animation config) =? 0)%float = true /\
  calculateAnimationProgress 1000 animation config = ((-0.25)%float, 0%float) /\
  calculateAnimationProgress 1100 animation config = (0.25%float, 0.25%float) /\
  calculateAnimationProgress 1150 animation config = (0.5%float, 0.5%float) /\
  calculateAnimationProgress 1400 animation config = (1.75%float, 1%float).
Proof.
  intros animation config.
  assert (H1 : uint64 1000) by reflexivity.
  assert (H2 : uint64 animation.(startTime)) by reflexivity.
  assert (H3 : uint64 config.(delay)) by reflexivity.
  assert (H4 : (1000 < animation.(startTime) + config.(delay))%N)
    by reflexivity.
  split; [repeat split; assumption|].
  split.
  - destruct (calculateAnimationProgress_raw_and_clamped 1000 animation config)
      as (_ & _ & _ & _ & _ & Hdelay).
    exact (Hdelay H1 H2 H3 H4).
  - repeat split; vm_compute; reflexivity.
Defined.

(** ** Zero duration *)




(** ** Pass-through of the transaction interceptor *)

(** C8.  With no layout animation configured and no key frame in flight on
    the surface, [pullTransaction] on an empty mutation batch returns no
    override and leaves the state of the manager as it was, whatever the
    orchestration of an animated transaction does. *)
Theorem pullTransaction_pass_through
    (animateTransaction :
       ManagerState -> Z -> N -> list ShadowViewMutation ->
       ManagerState * list ShadowViewMutation)
    (st : ManagerState) (surface transactionNumber : Z) (now : N) :
  st.(currentAnimation_) = None ->
  keyFramesInFlight st surface = [] ->
  pullTransaction animateTransaction st surface transactionNumber now [] =
  (st, None).
Proof.
  intros Hcurrent Hinflight.
  unfold pullTransaction, animationActive.
  now rewrite Hcurrent, Hinflight.
Qed.

Lemma pullTransaction_pass_through_witness :
  idleOnSurfaceOne.(currentAnimation_) = None /\
  keyFramesInFlight idleOnSurfaceOne 1 = [] /\
  pullTransaction passBatch idleOnSurfaceOne 1 42 1100 [] =
  (idleOnSurfaceOne, None).
Proof.
  assert (Hc : idleOnSurfaceOne.(currentAnimation_) = None) by reflexivity.
  assert (Hk : keyFramesInFlight idleOnSurfaceOne 1 = []) by reflexivity.
  split; [exact Hc|]. split; [exact Hk|].
  exact (pullTransaction_pass_through passBatch idleOnSurfaceOne 1 42 1100
           Hc Hk).
Defined.

(** * Further properties of the comparators *)

(** ** The pairs the full comparator orders *)

Lemma comparator_orders_iff (a b : ShadowViewMutation) :
  shouldFirstComeBeforeSecondMutation a b = true <->
  (a.(type) <> Delete /\ b.(type) = Delete) \/
  ((a.(type) = Remove \/ a.(type) = Create) /\ b.(type) = Insert) \/
  (a.(type) = Remove /\ b.(type) = Remove /\
   a.(parentShadowView).(tag) = b.(parentShadowView).(tag) /\
   b.(index) < a.(index)).
Proof.
  unfold shouldFirstComeBeforeSecondMutation. rewrite Z.gtb_ltb.
  destruct (Z.eqb_spec (tag (parentShadowView a)) (tag (parentShadowView b)));
    destruct (Z.ltb_spec (index b) (index a));
    destruct (type a), (type b); simpl; split;
    try discriminate; try reflexivity; intros Hyp;
    try (left; split; [discriminate|reflexivity]);
    try (right; left; split; [auto|reflexivity]);
    try (right; right; repeat split; assumption);
    try (destruct Hyp as [[H1 H2]|[[[H1|H1] H2]|(H1 & H2 & H3 & H4)]];
         try discriminate; try congruence; lia).
Qed.

(** The comparator answers true in three cases only: the second mutation is a
    Delete and the first is not; the second is an Insert and the first a
    Remove or a Create; both are Removes under parents of one tag and the
    first has the greater index.  Every other pair gets no preference. *)
Theorem comparator_true_iff (a b : ShadowViewMutation) :
  shouldFirstComeBeforeSecondMutation a b = true <->
  (a.(type) <> Delete /\ b.(type) = Delete) \/
  ((a.(type) = Remove \/ a.(type) = Create) /\ b.(type) = Insert) \/
  (a.(type) = Remove /\ b.(type) = Remove /\
   a.(parentShadowView).(tag) = b.(parentShadowView).(tag) /\
   b.(index) < a.(index)).
Proof. exact (comparator_orders_iff a b). Qed.

Lemma comparator_true_iff_witness :
  let a := mutationOf Update 7 20 3 in
  let b := mutationOf Insert 7 21 0 in
  shouldFirstComeBeforeSecondMutation a b = false /\
  shouldFirstComeBeforeSecondMutation b a = false.
Proof.
  intros a b. split.
  - destruct (shouldFirstComeBeforeSecondMutation a b) eqn:E; [|reflexivity].
    apply (proj1 (comparator_true_iff a b)) in E.
    destruct E as [[_ H]|[[[H|H] _]|(H & _)]]; discriminate H.
  - destruct (shouldFirstComeBeforeSecondMutation b a) eqn:E; [|reflexivity].
    apply (proj1 (comparator_true_iff b a)) in E.
    destruct E as [[_ H]|[[_ H]|(H & _)]]; discriminate H.
Defined.

(** ** What an arrangement that meets the comparator looks like *)

Lemma sorted_by_precedes {A : Type} (before : A -> A -> bool)
    (l : list A) (a b : A) :
  sorted_by before l -> precedes l a b -> before b a = false.
Proof.
  intros Hs (l1 & l2 & l3 & ->).
  induction l1 as [|x l1 IH]; simpl in Hs.
  - apply StronglySorted_inv in Hs. destruct Hs as [_ Hall].
    rewrite Forall_forall in Hall. apply Hall.
    apply in_or_app. right. now left.
  - apply StronglySorted_inv in Hs. now apply IH.
Qed.

Lemma sorted_by_weaken {A : Type} (f g : A -> A -> bool) (l : list A) :
  (forall a b, g a b = true -> f a b = true) ->
  sorted_by f l -> sorted_by g l.
Proof.
  intros Hgf Hs. induction Hs as [|x l Hs IH Hx]; constructor; [exact IH|].
  rewrite Forall_forall in *. intros y Hy. specialize (Hx y Hy).
  cbv beta in Hx. destruct (g y x) eqn:E; [|reflexivity].
  apply Hgf in E. congruence.
Qed.

Lemma removesOnly_implies_full (a b : ShadowViewMutation) :
  shouldFirstComeBeforeSecondRemovesOnly a b = true ->
  shouldFirstComeBeforeSecondMutation a b = true.
Proof.
  unfold shouldFirstComeBeforeSecondRemovesOnly.
  rewrite !andb_true_iff, !MutationType_eqb_eq, Z.eqb_eq, Z.gtb_ltb, Z.ltb_lt.
  intros [[[Ha Hb] Hp] Hi]. apply comparator_orders_iff.
  right. right. repeat split; congruence.
Qed.

(** In every arrangement of a batch that meets the postcondition of a sort
    with the full comparator, whatever algorithm produced it: nothing but
    Deletes follows a Delete, no Remove and no Create follows an Insert, and
    of two Removes under parents of one tag the later one never has the
    greater index, whatever stands between them. *)
Theorem arrangement_meeting_comparator
    (l : list ShadowViewMutation) (a b : ShadowViewMutation) :
  sorted_by shouldFirstComeBeforeSecondMutation l ->
  precedes l a b ->
  (a.(type) = Delete -> b.(type) = Delete) /\
  (a.(type) = Insert -> b.(type) <> Remove /\ b.(type) <> Create) /\
  (a.(type) = Remove -> b.(type) = Remove ->
   a.(parentShadowView).(tag) = b.(parentShadowView).(tag) ->
   b.(index) <= a.(index)).
Proof.
  intros Hs Hab.
  pose proof (sorted_by_precedes _ l a b Hs Hab) as Hba.
  assert (Hno : ~ shouldFirstComeBeforeSecondMutation b a = true)
    by congruence.
  rewrite comparator_orders_iff in Hno.
  split; [|split].
  - intros Ha. destruct (type b) eqn:Eb; try reflexivity;
      exfalso; apply Hno; left; split; congruence.
  - intros Ha. split; intros Hb; apply Hno; right; left; auto.
  - intros Ha Hb Hp.
    destruct (Z.le_gt_cases (index b) (index a)) as [|Hlt]; [assumption|].
    exfalso. apply Hno. right. right. repeat split; auto.
Qed.

Lemma arrangedBatch_sorted :
  sorted_by shouldFirstComeBeforeSecondMutation arrangedBatch.
Proof. repeat constructor. Qed.

Lemma arrangement_meeting_comparator_witness :
  let a := mutationOf Remove 7 20 3 in
  let b := mutationOf Remove 7 21 1 in
  sorted_by shouldFirstComeBeforeSecondMutation arrangedBatch /\
  precedes arrangedBatch a b /\
  b.(index) <= a.(index).
Proof.
  intros a b.
  assert (Hp : precedes arrangedBatch a b).
  { exists [mutationOf Update 3 30 0], [mutationOf Create 0 40 0],
      [mutationOf Insert 7 40 1; mutationOf Delete 0 20 0;
       mutationOf Delete 0 21 0].
    reflexivity. }
  split; [exact arrangedBatch_sorted|]. split; [exact Hp|].
  destruct (arrangement_meeting_comparator arrangedBatch a b
              arrangedBatch_sorted Hp) as (_ & _ & H).
  exact (H eq_refl eq_refl eq_refl).
Defined.

(** Every preference of the removes-only comparator is one of the full
    comparator, so an arrangement that meets the postcondition of a sort with
    the full comparator also meets it for the removes-only comparator. *)
Theorem full_arrangement_meets_removesOnly (l : list ShadowViewMutation) :
  sorted_by shouldFirstComeBeforeSecondMutation l ->
  sorted_by shouldFirstComeBeforeSecondRemovesOnly l.
Proof. apply sorted_by_weaken. exact removesOnly_implies_full. Qed.

Lemma full_arrangement_meets_removesOnly_witness :
  sorted_by shouldFirstComeBeforeSecondMutation arrangedBatch /\
  sorted_by shouldFirstComeBeforeSecondRemovesOnly arrangedBatch.
Proof.
  split; [exact arrangedBatch_sorted|].
  exact (full_arrangement_meets_removesOnly arrangedBatch
           arrangedBatch_sorted).
Defined.

(** ** Every batch can be arranged *)

Section LinearExtension.
Context {A : Type} (before : A -> A -> bool).
Hypothesis before_irreflexive : irreflexive before.
Hypothesis before_transitive : transitive before.

Lemma place_in_arrangement (x : A) (l : list A) :
  sorted_by before l ->
  exists l', Permutation (x :: l) l' /\ sorted_by before l'.
Proof.
  induction l as [|y l IH]; intros Hs.
  - exists [x]. split; [reflexivity|repeat constructor].
  - apply StronglySorted_inv in Hs. destruct Hs as [Hs Hy].
    destruct (existsb (fun w => before w x) (y :: l)) eqn:E.
    + destruct (IH Hs) as (l' & Hp & Hl').
      exists (y :: l'). split.
      * rewrite perm_swap. now constructor.
      * constructor; [exact Hl'|].
        rewrite Forall_forall in *. intros z Hz.
        apply (Permutation_in _ (Permutation_sym Hp)) in Hz.
        destruct Hz as [<-|Hz]; [|now apply Hy].
        destruct (before x y) eqn:Exy; [|reflexivity].
        apply existsb_exists in E. destruct E as (w & Hw & Hwx).
        pose proof (before_transitive _ _ _ Hwx Exy) as Hwy.
        destruct Hw as [<-|Hw].
        -- rewrite before_irreflexive in Hwy. discriminate.
        -- rewrite (Hy w Hw) in Hwy. discriminate.
    + exists (x :: y :: l). split; [reflexivity|].
      constructor; [now constructor|].
      rewrite Forall_forall. intros z Hz.
      destruct (before z x) eqn:Ez; [|reflexivity].
      assert (existsb (fun w => before w x) (y :: l) = true)
        by (apply existsb_exists; eauto).
      congruence.
Qed.

Lemma arrangement_exists (l : list A) :
  exists l', Permutation l l' /\ sorted_by before l'.
Proof.
  induction l as [|x l (l' & Hp & Hs)].
  - exists []. split; constructor.
  - destruct (place_in_arrangement x l' Hs) as (l'' & Hp' & Hs').
    exists l''. split; [|exact Hs'].
    rewrite <- Hp'. now constructor.
Qed.
End LinearExtension.

(** The ordering rules never contradict one another: every batch of
    mutations has an arrangement that meets the postcondition of a sort with
    the full comparator, and one for the removes-only comparator. *)
Theorem every_batch_can_be_arranged (l : list ShadowViewMutation) :
  (exists l', Permutation l l' /\
              sorted_by shouldFirstComeBeforeSecondMutation l') /\
  (exists l', Permutation l l' /\
              sorted_by shouldFirstComeBeforeSecondRemovesOnly l').
Proof.
  split; apply arrangement_exists.
  - exact comparator_irreflexive.
  - exact comparator_transitive.
  - exact (proj1 removesOnly_strict_partial_order).
  - exact (proj2 (proj2 removesOnly_strict_partial_order)).
Qed.

(** ** One outcome for removes with distinct indices *)

Lemma sorted_removes_unique (p : Z) (l1 : list ShadowViewMutation) :
  forall l2,
    Forall (removeUnder p) l1 -> NoDup (map index l1) ->
    Permutation l1 l2 ->
    sorted_by shouldFirstComeBeforeSecondMutation l1 ->
    sorted_by shouldFirstComeBeforeSecondMutation l2 ->
    l1 = l2.
Proof.
  induction l1 as [|h1 t1 IH]; intros l2 HP Hnd Hperm Hs1 Hs2.
  - apply Permutation_nil in Hperm. now subst.
  - destruct l2 as [|h2 t2];
      [apply Permutation_sym, Permutation_nil in Hperm; discriminate|].
    assert (HP2 : Forall (removeUnder p) (h2 :: t2)).
    { rewrite Forall_forall in *. intros z Hz. apply HP.
      now apply (Permutation_in _ (Permutation_sym Hperm)). }
    apply StronglySorted_inv in Hs1. destruct Hs1 as [Hs1 Hh1].
    apply StronglySorted_inv in Hs2. destruct Hs2 as [Hs2 Hh2].
    inversion HP as [|? ? Ph1 Pt1]; subst.
    inversion HP2 as [|? ? Ph2 Pt2]; subst.
    inversion Hnd as [|? ? Hnotin Hnd']; subst.
    assert (Heq : h1 = h2).
    { assert (Hin2 : In h2 (h1 :: t1))
        by (apply (Permutation_in _ (Permutation_sym Hperm)); now left).
      assert (Hin1 : In h1 (h2 :: t2))
        by (apply (Permutation_in _ Hperm); now left).
      destruct Hin2 as [Hin2|Hin2]; [exact Hin2|].
      destruct Hin1 as [Hin1|Hin1]; [now symmetry|].
      rewrite Forall_forall in Hh1, Hh2, Pt1, Pt2.
      pose proof (Hh1 h2 Hin2) as H21. cbv beta in H21.
      pose proof (Hh2 h1 Hin1) as H12. cbv beta in H12.
      rewrite (removeUnder_before p) in H21, H12 by auto.
      apply Z.ltb_ge in H21, H12.
      exfalso. apply Hnotin.
      replace (index h1) with (index h2) by lia.
      now apply in_map. }
    subst h2. f_equal.
    apply IH; auto.
    now apply Permutation_cons_inv in Hperm.
Qed.

(** For Removes under one parent whose sibling indices are pairwise distinct
    the comparator leaves one outcome only: every arrangement of the batch
    that meets the postcondition of the sort is the list the stable sort
    returns. *)
Theorem same_parent_removes_one_outcome
    (p : Z) (l l' : list ShadowViewMutation) :
  Forall (removeUnder p) l -> NoDup (map index l) ->
  Permutation l l' ->
  sorted_by shouldFirstComeBeforeSecondMutation l' ->
  l' = stable_sort shouldFirstComeBeforeSecondMutation l.
Proof.
  intros HP Hnd Hperm Hs.
  apply (sorted_removes_unique p).
  - rewrite Forall_forall in *. intros z Hz. apply HP.
    now apply (Permutation_in _ (Permutation_sym Hperm)).
  - apply (Permutation_NoDup (Permutation_map index Hperm) Hnd).
  - rewrite <- Hperm. apply stable_sort_perm.
  - exact Hs.
  - now apply (stable_sort_sorted_removes p).
Qed.

Lemma same_parent_removes_one_outcome_witness :
  let l := [mutationOf Remove 7 20 1; mutationOf Remove 7 21 4;
            mutationOf Remove 7 22 2] in
  let l' := [mutationOf Remove 7 21 4; mutationOf Remove 7 22 2;
             mutationOf Remove 7 20 1] in
  Forall (removeUnder 7) l /\ NoDup (map index l) /\ Permutation l l' /\
  sorted_by shouldFirstComeBeforeSecondMutation l' /\
  l' = stable_sort shouldFirstComeBeforeSecondMutation l.
Proof.
  intros l l'.
  assert (HP : Forall (removeUnder 7) l) by (repeat constructor).
  assert (Hnd : NoDup (map index l)).
  { repeat constructor; simpl; intuition discriminate. }
  assert (Hperm : Permutation l l').
  { subst l l'. eapply perm_trans; [apply perm_swap|].
    apply perm_skip. apply perm_swap. }
  assert (Hs : sorted_by shouldFirstComeBeforeSecondMutation l')
    by (repeat constructor).
  split; [exact HP|]. split; [exact Hnd|]. split; [exact Hperm|].
  split; [exact Hs|].
  exact (same_parent_removes_one_outcome 7 l l' HP Hnd Hperm Hs).
Defined.

(** ** Removes on the same level *)

(** "Highest indices must come first": in every arrangement of a batch that
    meets the postcondition of a sort with the removes-only comparator, of two
    Removes under parents of one tag the later one never has the greater
    index, whatever other mutations the batch holds. *)
Theorem removesOnly_arrangement_highest_index_first
    (l : list ShadowViewMutation) (a b : ShadowViewMutation) :
  sorted_by shouldFirstComeBeforeSecondRemovesOnly l ->
  precedes l a b ->
  a.(type) = Remove -> b.(type) = Remove ->
  a.(parentShadowView).(tag) = b.(parentShadowView).(tag) ->
  b.(index) <= a.(index).
Proof.
  intros Hs Hab Ha Hb Hp.
  pose proof (sorted_by_precedes _ l a b Hs Hab) as Hba.
  unfold shouldFirstComeBeforeSecondRemovesOnly in Hba.
  rewrite Ha, Hb, Hp, Z.eqb_refl, Z.gtb_ltb in Hba. simpl in Hba.
  now apply Z.ltb_ge in Hba.
Qed.

Lemma removesOnly_arrangement_highest_index_first_witness :
  let l := [mutationOf Insert 7 40 0; mutationOf Remove 7 20 3;
            mutationOf Update 3 30 0; mutationOf Remove 7 21 1] in
  let a := mutationOf Remove 7 20 3 in
  let b := mutationOf Remove 7 21 1 in
  sorted_by shouldFirstComeBeforeSecondRemovesOnly l /\
  precedes l a b /\ b.(index) <= a.(index).
Proof.
  intros l a b.
  assert (Hs : sorted_by shouldFirstComeBeforeSecondRemovesOnly l)
    by (repeat constructor).
  assert (Hp : precedes l a b).
  { exists [mutationOf Insert 7 40 0], [mutationOf Update 3 30 0], [].
    reflexivity. }
  split; [exact Hs|]. split; [exact Hp|].
  exact (removesOnly_arrangement_highest_index_first l a b Hs Hp
           eq_refl eq_refl eq_refl).
Defined.
